(** * The cache index contract of [index_base.py]

    A shallow embedding of the abstract class [IndexBase] and of the
    module-level helper [current_time].  The three abstract methods are the
    fields of a type class; the methods the base class implements are
    programs in a small state-and-exception monad over the Python state
    they can reach: the object's [index_dir] attribute, the list objects on
    the heap, whatever the backend keeps, and the system clock. *)

From Stdlib Require Import String Ascii List Arith NArith Lia Decimal DecimalString.
From stdpp Require Import base option list strings gmap.

Open Scope string_scope.
Open Scope list_scope.

(** ** Data model *)

(** A naive [datetime.datetime] value, as [datetime.datetime.now()] makes
    them (no [tzinfo]). *)
Record datetime := mk_datetime {
  year : N;
  month : N;
  day : N;
  hour : N;
  minute : N;
  second : N;
  microsecond : N
}.

(** [CacheEntry = namedtuple("CacheEntry", ["identifier", "timestamp"])] *)
Record CacheEntry := mk_CacheEntry {
  identifier : string;
  timestamp : datetime
}.

(** The ranges the [datetime] constructor enforces (the day is not checked
    against the month here; no statement below needs it). *)
Definition valid_datetime (t : datetime) : Prop :=
  (1 <= year t <= 9999 /\ 1 <= month t <= 12 /\ 1 <= day t <= 31 /\
   hour t < 24 /\ minute t < 60 /\ second t < 60 /\
   microsecond t < 1000000)%N.

(** The same instant with the microseconds cleared. *)
Definition to_seconds (t : datetime) : datetime :=
  mk_datetime (year t) (month t) (day t) (hour t) (minute t) (second t) 0%N.

(** ** [strftime]

    Python's [datetime.strftime], for the directives of [TIME_FORMAT] and
    [%f] and [%%]: a number is written in decimal and padded with zeros on
    the left to the directive's width; any other character is copied. *)
Definition str (n : N) : string := NilZero.string_of_uint (N.to_uint n).

Fixpoint zeros (n : nat) : string :=
  match n with
  | 0 => ""
  | S n' => String "0" (zeros n')
  end.

Definition zfill (width : nat) (s : string) : string :=
  (zeros (width - String.length s) ++ s)%string.

Definition directive (c : ascii) (t : datetime) : string :=
  if Ascii.eqb c "Y" then zfill 4 (str (year t))
  else if Ascii.eqb c "m" then zfill 2 (str (month t))
  else if Ascii.eqb c "d" then zfill 2 (str (day t))
  else if Ascii.eqb c "H" then zfill 2 (str (hour t))
  else if Ascii.eqb c "M" then zfill 2 (str (minute t))
  else if Ascii.eqb c "S" then zfill 2 (str (second t))
  else if Ascii.eqb c "f" then zfill 6 (str (microsecond t))
  else if Ascii.eqb c "%" then "%"
  else String "%" (String c "").

Fixpoint strftime (format : string) (t : datetime) : string :=
  match format with
  | "" => ""
  | String "%" (String c rest) => (directive c t ++ strftime rest t)%string
  | String c rest => String c (strftime rest t)
  end.

(** The class attribute [IndexBase.TIME_FORMAT]. *)
Definition TIME_FORMAT : string := "%Y-%m-%d:%H:%M:%S".

(** Reading a decimal field back, as [strptime] does for a numeric
    directive. *)
Definition int (s : string) : option N :=
  N.of_uint <$> NilZero.uint_of_string s.

(** A reference to a Python list object: its position in the heap. *)
Abbreviation ref := nat (only parsing).

Section IndexBase.

(** The location descriptor, the backend's own state (attributes the
    subclass adds and the storage it talks to) and its exceptions. *)
Context {Loc Store Exn : Type}.

(** What a method of the object can read and write.  [index_dir] holds
    [None] for Python's [None].  [clock n] is the [n]-th reading the
    system clock will give and [ticks] counts the readings taken. *)
Record World := mk_World {
  index_dir : option Loc;
  heap : list (list CacheEntry);
  store : Store;
  clock : nat -> datetime;
  ticks : nat
}.

(** The calls made on the abstract methods, in order. [CallSave] records
    the list handed over, [CallInit] the [index_dir] in force. *)
Inductive Event :=
| CallLoad
| CallSave (index : list CacheEntry)
| CallInit (dir : option Loc).

Record State := mk_State {
  world : World;
  trace : list Event
}.

Inductive outcome (A : Type) :=
| Return (a : A)
| Raise (e : Exn).
Arguments Return {A} a.
Arguments Raise {A} e.

(** A Python computation: it ends with a value or an exception, and the
    state it leaves is kept in both cases. *)
Definition Py (A : Type) := State -> outcome A * State.

Definition ret {A} (a : A) : Py A := fun s => (Return a, s).

Definition bind {A B} (m : Py A) (k : A -> Py B) : Py B :=
  fun s =>
    match m s with
    | (Return a, s') => k a s'
    | (Raise e, s') => (Raise e, s')
    end.

Notation "'let!' x ':=' m 'in' k" := (bind m (fun x => k))
  (at level 10, x name, m at level 100, k at level 200, only parsing).
Notation "m ';;;' k" := (bind m (fun _ => k))
  (at level 100, k at level 200, right associativity, only parsing).

(** The list a reference points to. *)
Definition deref (l : ref) (w : World) : list CacheEntry :=
  default [] (heap w !! l).

Definition with_index_dir (d : option Loc) (w : World) : World :=
  mk_World d (heap w) (store w) (clock w) (ticks w).

Definition with_heap (h : list (list CacheEntry)) (w : World) : World :=
  mk_World (index_dir w) h (store w) (clock w) (ticks w).

Definition with_store (st : Store) (w : World) : World :=
  mk_World (index_dir w) (heap w) st (clock w) (ticks w).

Definition with_ticks (n : nat) (w : World) : World :=
  mk_World (index_dir w) (heap w) (store w) (clock w) n.

(** The abstract methods [load], [save] and [_initialize_index].  A
    backend may do anything to the world; [load] answers with a list
    object, which exists ([load_live]). *)
Class IndexBackend := {
  load : World -> outcome ref * World;
  save : ref -> World -> outcome unit * World;
  _initialize_index : World -> outcome unit * World;
  load_live : forall w l w',
    load w = (Return l, w') -> l < length (heap w')
}.

Context {backend : IndexBackend}.

(** [self.load()], [self.save(index)], [self._initialize_index()] *)
Definition call_load : Py ref := fun s =>
  let (r, w') := load (world s) in
  (r, mk_State w' (trace s ++ [CallLoad])).

Definition call_save (index : ref) : Py unit := fun s =>
  let (r, w') := save index (world s) in
  (r, mk_State w' (trace s ++ [CallSave (deref index (world s))])).

Definition call_initialize_index : Py unit := fun s =>
  let (r, w') := _initialize_index (world s) in
  (r, mk_State w' (trace s ++ [CallInit (index_dir (world s))])).

(** [self.index_dir = index_dir] *)
Definition assign_index_dir (d : option Loc) : Py unit := fun s =>
  (Return tt, mk_State (with_index_dir d (world s)) (trace s)).

(** Iterating over a list object reads its items. *)
Definition items (index : ref) : Py (list CacheEntry) := fun s =>
  (Return (deref index (world s)), s).

(** [index.append(entry)] changes the list object in place. *)
Definition append (index : ref) (entry : CacheEntry) : Py unit := fun s =>
  let w := world s in
  (Return tt,
   mk_State (with_heap (<[index := deref index w ++ [entry]]> (heap w)) w)
            (trace s)).

(** [def current_time(): return datetime.datetime.now()] *)
Definition current_time : Py datetime := fun s =>
  let w := world s in
  (Return (clock w (ticks w)),
   mk_State (with_ticks (S (ticks w)) w) (trace s)).

(** *** The methods of [IndexBase] *)

Definition get_index_dir : Py (option Loc) := fun s =>
  (Return (index_dir (world s)), s).

Definition set_index_dir (d : option Loc) : Py unit :=
  assign_index_dir d ;;;
  call_initialize_index.

(** [def __init__(self, index_dir=None)]: [None] for the argument when
    the caller leaves it out. *)
Definition __init__ (arg : option (option Loc)) : Py unit :=
  let index_dir := default None arg in
  set_index_dir index_dir.

Definition has (x : string) : Py bool :=
  let! index := call_load in
  let! entries := items index in
  ret (existsb (fun entry => bool_decide (identifier entry = x)) entries).

Definition known : Py (gset string) :=
  let! index := call_load in
  let! entries := items index in
  ret (list_to_set (identifier <$> entries)).

Definition add (x : string) : Py unit :=
  let! index := call_load in
  let! now := current_time in
  let entry := mk_CacheEntry x now in
  append index entry ;;;
  call_save index.

(** The world in which [add x] calls [save], when [load] answered [l] and
    left [w]: the clock read once and the entry appended to [l]. *)
Definition staged (x : string) (l : ref) (w : World) : World :=
  let entry := mk_CacheEntry x (clock w (ticks w)) in
  let w' := with_ticks (S (ticks w)) w in
  with_heap (<[l := deref l w' ++ [entry]]> (heap w')) w'.

(** A finite sequence of [add] calls. *)
Fixpoint add_all (xs : list string) : Py unit :=
  match xs with
  | [] => ret tt
  | x :: xs' => add x ;;; add_all xs'
  end.

(** What the contract asks of [save]: the next [load] succeeds and answers
    with the identifiers that were saved, in their order. *)
Definition persists : Prop :=
  forall (l : ref) (w w' : World),
    l < length (heap w) ->
    save l w = (Return tt, w') ->
    exists l' w'',
      load w' = (Return l', w'') /\
      identifier <$> deref l' w'' = identifier <$> deref l w.

(** [_initialize_index] run in [w] leaves the attribute [index_dir] as
    it found it. *)
Definition keeps_index_dir (w : World) : Prop :=
  index_dir (_initialize_index w).2 = index_dir w.

(** The reading of the claim that every timestamp [add x] hands to [save]
    for [x] is already cut to the second. *)
Definition saves_whole_seconds (x : string) (s : State) : Prop :=
  forall index entry,
    CallSave index ∈ trace (add x s).2 ->
    entry ∈ index ->
    identifier entry = x ->
    to_seconds (timestamp entry) = timestamp entry.

(** The index a state holds: what [load] answers there. *)
Definition loads (s : State) (entries : list CacheEntry) : Prop :=
  exists l w', load (world s) = (Return l, w') /\ deref l w' = entries.

End IndexBase.

Arguments World : clear implicits.
Arguments Event : clear implicits.
Arguments State : clear implicits.
Arguments outcome : clear implicits.
Arguments Return {Exn A} a.
Arguments Raise {Exn A} e.
Arguments Py : clear implicits.
Arguments IndexBackend : clear implicits.

(** ** Two backends to run the contract on

    [FileIndex] keeps one index per directory on a disk that may be
    read-only and writes timestamps to the second, the way a backend that
    formats them under [TIME_FORMAT] does; [load] builds a new list object
    each time.  [MemIndex] keeps the index in a list object of its own,
    hands out that very object, and refuses to be set up without a
    location. *)

Module FileIndex.

Inductive CacheException := NotSet | Unreadable | Unwritable.

Record Disk := mk_Disk {
  files : gmap string (list CacheEntry);
  writable : bool
}.

Definition W := World string Disk.

Definition row (entry : CacheEntry) : CacheEntry :=
  mk_CacheEntry (identifier entry) (to_seconds (timestamp entry)).

Definition write (d : string) (rows : list CacheEntry) (w : W) : W :=
  with_store (mk_Disk (<[d := rows]> (files (store w))) (writable (store w))) w.

Definition load (w : W) : outcome CacheException ref * W :=
  match index_dir w with
  | None => (Raise NotSet, w)
  | Some d =>
      match files (store w) !! d with
      | None => (Raise Unreadable, w)
      | Some rows =>
          (Return (length (heap w)), with_heap (heap w ++ [rows]) w)
      end
  end.

Definition save (index : ref) (w : W) : outcome CacheException unit * W :=
  match index_dir w with
  | None => (Raise NotSet, w)
  | Some d =>
      if writable (store w)
      then (Return tt, write d (row <$> deref index w) w)
      else (Raise Unwritable, w)
  end.

Definition _initialize_index (w : W) : outcome CacheException unit * W :=
  match index_dir w with
  | None => (Return tt, w)
  | Some d =>
      match files (store w) !! d with
      | Some _ => (Return tt, w)
      | None =>
          if writable (store w)
          then (Return tt, write d [] w)
          else (Raise Unwritable, w)
      end
  end.

Lemma file_load_live (w : W) (l : ref) (w' : W) :
  load w = (Return l, w') -> l < length (heap w').
Proof.
  unfold load. destruct (index_dir w) as [d|]; [|discriminate].
  destruct (files (store w) !! d) as [rows|]; [|discriminate].
  intros [= <- <-]. cbn. rewrite length_app. cbn. lia.
Qed.

#[global] Instance backend : IndexBackend string Disk CacheException :=
  Build_IndexBackend load save _initialize_index file_load_live.

(** A clock that starts a quarter of a second past noon and gains a
    second at each reading. *)
Definition tick_clock (n : nat) : datetime :=
  mk_datetime 2024 3 9 12 0 (N.of_nat n) 250000.

(** A writable disk with no index yet, and a registry not yet pointed
    anywhere. *)
Definition blank : State string Disk :=
  mk_State (mk_World None [] (mk_Disk ∅ true) tick_clock 0) [].

(** The same after [set_index_dir (Some cache)]. *)
Definition fresh : State string Disk :=
  (set_index_dir (Some "cache") blank).2.

(** A read-only disk with no index on it. *)
Definition sealed : State string Disk :=
  mk_State (mk_World None [] (mk_Disk ∅ false) tick_clock 0) [].

(** The disk turned read-only after the index was created. *)
Definition locked : State string Disk :=
  mk_State (with_store (mk_Disk (files (store (world fresh))) false)
              (world fresh)) [].

End FileIndex.

Module MemIndex.

Inductive MemError := Unset | Lost.

Definition W := World unit (option ref).

Definition load (w : W) : outcome MemError ref * W :=
  match store w with
  | None => (Raise Unset, w)
  | Some l =>
      match heap w !! l with
      | Some _ => (Return l, w)
      | None => (Raise Lost, w)
      end
  end.

Definition save (index : ref) (w : W) : outcome MemError unit * W :=
  (Return tt, with_store (Some index) w).

Definition _initialize_index (w : W) : outcome MemError unit * W :=
  match index_dir w with
  | None => (Raise Unset, w)
  | Some _ =>
      (Return tt,
       with_store (Some (length (heap w))) (with_heap (heap w ++ [[]]) w))
  end.

Lemma mem_load_live (w : W) (l : ref) (w' : W) :
  load w = (Return l, w') -> l < length (heap w').
Proof.
  unfold load. destruct (store w) as [l0|]; [|discriminate].
  destruct (heap w !! l0) eqn:E; [|discriminate].
  intros [= <- <-]. eapply lookup_lt_Some, E.
Qed.

#[global] Instance backend : IndexBackend unit (option ref) MemError :=
  Build_IndexBackend load save _initialize_index mem_load_live.

Definition blank : State unit (option ref) :=
  mk_State (mk_World None [] None FileIndex.tick_clock 0) [].

Definition fresh : State unit (option ref) :=
  (set_index_dir (Some tt) blank).2.

End MemIndex.

(** A third backend: [QuotaIndex] shares its list object like [MemIndex]
    and refuses to save an index longer than its quota. *)

Module QuotaIndex.

Inductive QuotaError := NoIndex | Full.

Record Shelf := mk_Shelf {
  own : option ref;
  quota : nat
}.

Definition W := World string Shelf.

Definition load (w : W) : outcome QuotaError ref * W :=
  match own (store w) with
  | None => (Raise NoIndex, w)
  | Some l =>
      match heap w !! l with
      | Some _ => (Return l, w)
      | None => (Raise NoIndex, w)
      end
  end.

Definition save (index : ref) (w : W) : outcome QuotaError unit * W :=
  if (length (deref index w) <=? quota (store w))%nat
  then (Return tt, with_store (mk_Shelf (Some index) (quota (store w))) w)
  else (Raise Full, w).

Definition _initialize_index (w : W) : outcome QuotaError unit * W :=
  (Return tt,
   with_store (mk_Shelf (Some (length (heap w))) (quota (store w)))
     (with_heap (heap w ++ [[]]) w)).

Lemma quota_load_live (w : W) (l : ref) (w' : W) :
  load w = (Return l, w') -> l < length (heap w').
Proof.
  unfold load. destruct (own (store w)) as [l0|]; [|discriminate].
  destruct (heap w !! l0) eqn:E; [|discriminate].
  intros [= <- <-]. eapply lookup_lt_Some, E.
Qed.

#[global] Instance backend : IndexBackend string Shelf QuotaError :=
  Build_IndexBackend load save _initialize_index quota_load_live.

(** A shelf with room for one entry, set up, and the same once full. *)
Definition fresh : State string Shelf :=
  (set_index_dir (Some "shelf")
     (mk_State (mk_World None [] (mk_Shelf None 1) FileIndex.tick_clock 0) [])).2.

Definition full : State string Shelf := (add "a" fresh).2.

End QuotaIndex.

Section Hooks.

Context {Loc Store Exn : Type} {backend : IndexBackend Loc Store Exn}.

(** Neither [load] nor [save] reads the system clock. *)
Definition leave_clock_alone : Prop :=
  (forall w : World Loc Store, ticks (load w).2 = ticks w) /\
  (forall (l : ref) (w : World Loc Store), ticks (save l w).2 = ticks w).

(** [load], [save], and [save] when it raises, leave a component of the
    world as they found it. *)
Definition load_keeps {T : Type} (field : World Loc Store -> T) : Prop :=
  forall w, field (load w).2 = field w.

Definition save_keeps {T : Type} (field : World Loc Store -> T) : Prop :=
  forall (l : ref) w, field (save l w).2 = field w.


End Hooks.



(** * Rendering under [TIME_FORMAT] *)

Section Strftime.

Lemma forallb_below (P : N -> bool) (bound : N) :
  forallb P (N.of_nat <$> seq 0 (N.to_nat bound)) = true ->
  forall n : N, (n < bound)%N -> P n = true.
Proof.
  rewrite forallb_forall. intros Hall n Hn. apply Hall.
  apply list_elem_of_In, list_elem_of_fmap. exists (N.to_nat n).
  split; [by rewrite N2Nat.id|]. apply elem_of_seq. lia.
Qed.

(** A field that fits its width is written on exactly that width and
    reads back as itself. *)
Definition fits (width : nat) (n : N) : bool :=
  bool_decide (String.length (zfill width (str n)) = width /\
               int (zfill width (str n)) = Some n).

Lemma zfill_2 (n : N) :
  (n < 100)%N ->
  String.length (zfill 2 (str n)) = 2 /\ int (zfill 2 (str n)) = Some n.
Proof.
  intros Hn. apply (bool_decide_eq_true_1 _).
  apply (forallb_below (fits 2) 100); [by vm_compute | done].
Qed.

Lemma zfill_4 (n : N) :
  (n < 10000)%N ->
  String.length (zfill 4 (str n)) = 4 /\ int (zfill 4 (str n)) = Some n.
Proof.
  intros Hn. apply (bool_decide_eq_true_1 _).
  apply (forallb_below (fits 4) 10000); [by vm_compute | done].
Qed.

Lemma append_inv (a a' b b' : string) :
  String.length a = String.length a' ->
  (a ++ b)%string = (a' ++ b')%string -> a = a' /\ b = b'.
Proof.
  revert a'. induction a as [|c a IH]; intros [|c' a']; cbn; try done.
  intros [= Hlen] [= -> Happ]. destruct (IH _ Hlen Happ) as [-> ->]. done.
Qed.

Lemma append_empty (a : string) : (a ++ "")%string = a.
Proof.
  induction a as [|c a IH]; [done|].
  change (String c (a ++ "")%string = String c a). by rewrite IH.
Qed.

Lemma length_append (a b : string) :
  String.length (a ++ b)%string = String.length a + String.length b.
Proof.
  induction a as [|c a IH]; [done|].
  change (S (String.length (a ++ b)%string) = S (String.length a + String.length b)).
  by rewrite IH.
Qed.

Lemma strftime_TIME_FORMAT (t : datetime) :
  strftime TIME_FORMAT t =
  (zfill 4 (str (year t)) ++ "-" ++ zfill 2 (str (month t)) ++ "-" ++
   zfill 2 (str (day t)) ++ ":" ++ zfill 2 (str (hour t)) ++ ":" ++
   zfill 2 (str (minute t)) ++ ":" ++ zfill 2 (str (second t)))%string.
Proof.
  transitivity
    (zfill 4 (str (year t)) ++ "-" ++ zfill 2 (str (month t)) ++ "-" ++
     zfill 2 (str (day t)) ++ ":" ++ zfill 2 (str (hour t)) ++ ":" ++
     zfill 2 (str (minute t)) ++ ":" ++ zfill 2 (str (second t)) ++ "")%string;
    [reflexivity | by rewrite append_empty].
Qed.

Lemma strftime_TIME_FORMAT_length (t : datetime) :
  valid_datetime t -> String.length (strftime TIME_FORMAT t) = 19.
Proof.
  intros (Hy & Hm & Hd & HH & HM & HS & _). rewrite strftime_TIME_FORMAT.
  repeat (rewrite length_append; cbn [String.length]).
  rewrite (proj1 (zfill_4 (year t) ltac:(lia))).
  rewrite (proj1 (zfill_2 (month t) ltac:(lia))).
  rewrite (proj1 (zfill_2 (day t) ltac:(lia))).
  rewrite (proj1 (zfill_2 (hour t) ltac:(lia))).
  rewrite (proj1 (zfill_2 (minute t) ltac:(lia))).
  rewrite (proj1 (zfill_2 (second t) ltac:(lia))).
  reflexivity.
Qed.

Lemma zfill_inj (width : nat) (m n : N) :
  int (zfill width (str m)) = Some m ->
  int (zfill width (str n)) = Some n ->
  zfill width (str m) = zfill width (str n) -> m = n.
Proof. intros Hm Hn Heq. rewrite Heq in Hm. congruence. Qed.

(** Two valid timestamps read alike under [TIME_FORMAT] exactly when they
    agree down to the second. *)
Lemma strftime_TIME_FORMAT_seconds (t t' : datetime) :
  valid_datetime t -> valid_datetime t' ->
  strftime TIME_FORMAT t = strftime TIME_FORMAT t' <->
  to_seconds t = to_seconds t'.
Proof.
  intros (Hy & Hm & Hd & HH & HM & HS & _) (Hy' & Hm' & Hd' & HH' & HM' & HS' & _).
  rewrite !strftime_TIME_FORMAT. split.
  - destruct (zfill_4 (year t)) as [Ly Ry]; [lia|].
    destruct (zfill_4 (year t')) as [Ly' Ry']; [lia|].
    destruct (zfill_2 (month t)) as [Lm Rm]; [lia|].
    destruct (zfill_2 (month t')) as [Lm' Rm']; [lia|].
    destruct (zfill_2 (day t)) as [Ld Rd]; [lia|].
    destruct (zfill_2 (day t')) as [Ld' Rd']; [lia|].
    destruct (zfill_2 (hour t)) as [LH RH]; [lia|].
    destruct (zfill_2 (hour t')) as [LH' RH']; [lia|].
    destruct (zfill_2 (minute t)) as [LM RM]; [lia|].
    destruct (zfill_2 (minute t')) as [LM' RM']; [lia|].
    destruct (zfill_2 (second t)) as [LS RS]; [lia|].
    destruct (zfill_2 (second t')) as [LS' RS']; [lia|].
    intros E.
    apply append_inv in E as [Ey E]; [|congruence].
    apply append_inv in E as [_ E]; [|reflexivity].
    apply append_inv in E as [Em E]; [|congruence].
    apply append_inv in E as [_ E]; [|reflexivity].
    apply append_inv in E as [Ed E]; [|congruence].
    apply append_inv in E as [_ E]; [|reflexivity].
    apply append_inv in E as [EH E]; [|congruence].
    apply append_inv in E as [_ E]; [|reflexivity].
    apply append_inv in E as [EM E]; [|congruence].
    apply append_inv in E as [_ ES]; [|reflexivity].
    unfold to_seconds.
    rewrite (zfill_inj _ _ _ Ry Ry' Ey), (zfill_inj _ _ _ Rm Rm' Em),
      (zfill_inj _ _ _ Rd Rd' Ed), (zfill_inj _ _ _ RH RH' EH),
      (zfill_inj _ _ _ RM RM' EM), (zfill_inj _ _ _ RS RS' ES).
    reflexivity.
  - unfold to_seconds. intros [= -> -> -> -> -> ->]. reflexivity.
Qed.

End Strftime.

(** * The contract *)

Section Contract.

Context {Loc Store Exn : Type} {backend : IndexBackend Loc Store Exn}.

Implicit Types (s : State Loc Store) (w : World Loc Store) (l : ref)
  (x : string).

(** ** What each method does, by the answer of the first hook *)

Lemma has_eq x s :
  has x s =
  match load (world s) with
  | (Return l, w') =>
      (Return (existsb (fun entry => bool_decide (identifier entry = x))
                 (deref l w')),
       mk_State w' (trace s ++ [CallLoad]))
  | (Raise e, w') => (Raise e, mk_State w' (trace s ++ [CallLoad]))
  end.
Proof.
  unfold has, bind, call_load, items, ret.
  destruct (load (world s)) as [[l|e] w']; reflexivity.
Qed.

Lemma known_eq s :
  known s =
  match load (world s) with
  | (Return l, w') =>
      (Return (list_to_set (identifier <$> deref l w')),
       mk_State w' (trace s ++ [CallLoad]))
  | (Raise e, w') => (Raise e, mk_State w' (trace s ++ [CallLoad]))
  end.
Proof.
  unfold known, bind, call_load, items, ret.
  destruct (load (world s)) as [[l|e] w']; reflexivity.
Qed.

Lemma add_eq x s :
  add x s =
  match load (world s) with
  | (Return l, w') =>
      ((save l (staged x l w')).1,
       mk_State (save l (staged x l w')).2
         (trace s ++ [CallLoad; CallSave (deref l (staged x l w'))]))
  | (Raise e, w') => (Raise e, mk_State w' (trace s ++ [CallLoad]))
  end.
Proof.
  unfold add, bind, call_load, current_time, append, call_save, staged.
  destruct (load (world s)) as [[l|e] w']; [|reflexivity].
  cbn. destruct (save l _) as [[[]|e] w'']; cbn;
    rewrite <- app_assoc; reflexivity.
Qed.

Lemma set_index_dir_eq d s :
  set_index_dir d s =
  ((_initialize_index (with_index_dir d (world s))).1,
   mk_State (_initialize_index (with_index_dir d (world s))).2
     (trace s ++ [CallInit d])).
Proof.
  unfold set_index_dir, bind, assign_index_dir, call_initialize_index. cbn.
  destruct (_initialize_index _) as [[[]|e] w']; reflexivity.
Qed.

(** ** The list object between [load] and [save] *)

Lemma staged_deref x l w w0 :
  load w0 = (Return l, w) ->
  deref l (staged x l w) =
  deref l w ++ [mk_CacheEntry x (clock w (ticks w))].
Proof.
  intros Hl%load_live. unfold staged, deref. cbn.
  rewrite list_lookup_insert_eq by done. reflexivity.
Qed.

Lemma staged_deref_ne x l l' w :
  l' <> l -> deref l' (staged x l w) = deref l' w.
Proof.
  intros Hne. unfold staged, deref. cbn.
  rewrite list_lookup_insert_ne by done. reflexivity.
Qed.

Lemma staged_live x l w w0 :
  load w0 = (Return l, w) -> l < length (heap (staged x l w)).
Proof.
  intros Hl%load_live. unfold staged. cbn. rewrite length_insert. done.
Qed.

(** One [add] that returns, seen from the next [load]. *)
Lemma add_then_load x s s' l w :
  persists ->
  load (world s) = (Return l, w) ->
  add x s = (Return tt, s') ->
  exists l' w',
    load (world s') = (Return l', w') /\
    identifier <$> deref l' w' = (identifier <$> deref l w) ++ [x].
Proof.
  intros Hp Hl Ha. rewrite add_eq, Hl in Ha.
  destruct (save l (staged x l w)) as [r w2] eqn:Hs.
  cbn in Ha. injection Ha as -> <-. cbn.
  destruct (Hp _ _ _ (staged_live x _ _ _ Hl) Hs) as (l' & w' & Hl' & Hids).
  exists l', w'. split; [done|].
  rewrite Hids, (staged_deref _ _ _ _ Hl), fmap_app. reflexivity.
Qed.

Lemma existsb_identifier x (entries : list CacheEntry) :
  existsb (fun entry => bool_decide (identifier entry = x)) entries = true
  <-> x ∈ identifier <$> entries.
Proof.
  rewrite existsb_exists, list_elem_of_fmap. split.
  - intros (entry & Hin%list_elem_of_In & Hx%bool_decide_eq_true). eauto.
  - intros (entry & -> & Hin). exists entry.
    rewrite <- list_elem_of_In, bool_decide_eq_true. done.
Qed.

Lemma elem_of_identifiers x (entries : list CacheEntry) :
  x ∈ identifier <$> entries <->
  exists entry, entry ∈ entries /\ identifier entry = x.
Proof.
  rewrite list_elem_of_fmap. split.
  - intros (entry & -> & Hin). by exists entry.
  - intros (entry & Hin & <-). by exists entry.
Qed.

Lemma add_returns_load_returned x s s' :
  add x s = (Return tt, s') ->
  exists l w, load (world s) = (Return l, w).
Proof.
  rewrite add_eq. destruct (load (world s)) as [[l|e] w]; [eauto|done].
Qed.

(** The identifiers [load] answers with after a run of [add]s that all
    returned. *)
Lemma add_all_then_load (xs : list string) :
  persists ->
  forall s s' (ids : list string),
    (exists l w, load (world s) = (Return l, w) /\
                 identifier <$> deref l w = ids) ->
    add_all xs s = (Return tt, s') ->
    exists l' w',
      load (world s') = (Return l', w') /\
      identifier <$> deref l' w' = ids ++ xs.
Proof.
  intros Hp. induction xs as [|x xs IH]; intros s s' ids (l & w & Hl & Hids).
  - intros [= <-]. exists l, w. by rewrite app_nil_r.
  - cbn. unfold bind at 1. destruct (add x s) as [[[]|e] s1] eqn:Ha; [|done].
    intros Hrest.
    destruct (add_then_load _ _ _ _ _ Hp Hl Ha) as (l1 & w1 & Hl1 & Hids1).
    destruct (IH s1 s' (ids ++ [x])) as (l' & w' & Hl' & Hids'); [|done|].
    + exists l1, w1. by rewrite Hids1, Hids.
    + exists l', w'. by rewrite Hids', <- app_assoc.
Qed.

(** ** The claims *)

(** C1: whatever the identifier and the state of the index, [add x] loads
    the index, appends the one entry [(x, current_time())] at the end of
    the loaded list, whose earlier entries stay as they were and in their
    order (and no other list object changes), and hands that list to
    [save], whose outcome is the outcome of [add]; nothing looks for an
    earlier entry of [x], and when [save] persists what it is given, two
    calls of [add x] that return leave the identifier [x] twice more in
    what [load] answers. *)
Theorem add_appends_one_entry_and_saves x s l w :
  load (world s) = (Return l, w) ->
  let entry := mk_CacheEntry x (clock w (ticks w)) in
  deref l (staged x l w) = deref l w ++ [entry] /\
  (forall l', l' <> l -> deref l' (staged x l w) = deref l' w) /\
  add x s =
    ((save l (staged x l w)).1,
     mk_State (save l (staged x l w)).2
       (trace s ++ [CallLoad; CallSave (deref l w ++ [entry])])) /\
  (persists ->
   forall s1 s2,
     add x s = (Return tt, s1) -> add x s1 = (Return tt, s2) ->
     exists l' w',
       load (world s2) = (Return l', w') /\
       identifier <$> deref l' w' = (identifier <$> deref l w) ++ [x; x] /\
       count_occ string_dec (identifier <$> deref l' w') x =
       2 + count_occ string_dec (identifier <$> deref l w) x).
Proof.
  intros Hl entry. split; [|split; [|split]].
  - exact (staged_deref _ _ _ _ Hl).
  - intros l' Hne. by apply staged_deref_ne.
  - rewrite add_eq, Hl, (staged_deref _ _ _ _ Hl). reflexivity.
  - intros Hp s1 s2 H1 H2.
    destruct (add_then_load _ _ _ _ _ Hp Hl H1) as (l1 & w1 & Hl1 & Hids1).
    destruct (add_then_load _ _ _ _ _ Hp Hl1 H2) as (l2 & w2 & Hl2 & Hids2).
    exists l2, w2. split; [done|].
    assert (identifier <$> deref l2 w2 = (identifier <$> deref l w) ++ [x; x])
      as -> by (by rewrite Hids2, Hids1, <- app_assoc).
    split; [done|]. rewrite count_occ_app. cbn.
    destruct (string_dec x x); [lia|done].
Qed.

(** C2: [has x] answers true exactly when some entry of the list that
    [load] returned carries the identifier [x]; its only call on the
    backend is that one [load], so it never calls [save]. *)
Theorem has_iff_some_entry x s :
  trace (has x s).2 = trace s ++ [CallLoad] /\
  forall l w,
    load (world s) = (Return l, w) ->
    exists b : bool,
      has x s = (Return b, mk_State w (trace s ++ [CallLoad])) /\
      (b = true <->
       exists entry, entry ∈ deref l w /\ identifier entry = x).
Proof.
  rewrite has_eq. split.
  - destruct (load (world s)) as [[l|e] w]; reflexivity.
  - intros l w ->. eexists. split; [reflexivity|].
    rewrite existsb_identifier. apply elem_of_identifiers.
Qed.

(** C3: [known ()] answers with the set of the identifiers of the entries
    that [load] returned, no more and no fewer, each counted once however
    often it occurs; its only call on the backend is that one [load], so
    it never calls [save]. *)
Theorem known_is_set_of_identifiers s :
  trace (known s).2 = trace s ++ [CallLoad] /\
  forall l w,
    load (world s) = (Return l, w) ->
    exists ids : gset string,
      known s = (Return ids, mk_State w (trace s ++ [CallLoad])) /\
      (forall x, x ∈ ids <->
         exists entry, entry ∈ deref l w /\ identifier entry = x) /\
      size ids = length (remove_dups (identifier <$> deref l w)).
Proof.
  rewrite known_eq. split.
  - destruct (load (world s)) as [[l|e] w]; reflexivity.
  - intros l w ->. eexists. split; [reflexivity|]. split.
    + intros x. rewrite elem_of_list_to_set. apply elem_of_identifiers.
    + rewrite <- (size_list_to_set (C := gset string))
        by apply NoDup_remove_dups.
      f_equal. apply set_eq. intros x.
      by rewrite !elem_of_list_to_set, elem_of_remove_dups.
Qed.

(** C4: when the index holds no entry for [x], [has x] answers false; and
    once [add x] has then returned, [has x] answers true. *)
Theorem has_false_before_add_true_after x s l w :
  persists ->
  load (world s) = (Return l, w) ->
  (forall entry, entry ∈ deref l w -> identifier entry <> x) ->
  exists s1,
    has x s = (Return false, s1) /\
    forall s2,
      add x s1 = (Return tt, s2) ->
      exists s3, has x s2 = (Return true, s3).
Proof.
  intros Hp Hl Hfresh. eexists. split.
  - rewrite has_eq, Hl. f_equal. f_equal.
    apply not_true_is_false. rewrite existsb_identifier, list_elem_of_fmap.
    intros (entry & -> & Hin). by eapply Hfresh.
  - intros s2 Ha.
    destruct (add_returns_load_returned _ _ _ Ha) as (l1 & w1 & Hl1).
    destruct (add_then_load _ _ _ _ _ Hp Hl1 Ha) as (l2 & w2 & Hl2 & Hids).
    eexists. rewrite has_eq, Hl2. f_equal. f_equal.
    rewrite existsb_identifier, Hids. set_solver.
Qed.

(** C5: start from an empty index and let any finite sequence of [add]
    calls return; [known ()] then answers with the set of the identifiers
    that were passed, so two such runs that passed the same identifiers,
    in whatever order and however often, get the same answer. *)
Theorem known_after_adds (xs : list string) s s' :
  persists ->
  loads s [] ->
  add_all xs s = (Return tt, s') ->
  (exists s'', known s' = (Return (list_to_set xs), s'')) /\
  forall (ys : list string) t t',
    loads t [] ->
    add_all ys t = (Return tt, t') ->
    (forall x, x ∈ xs <-> x ∈ ys) ->
    (known t').1 = (known s').1.
Proof.
  intros Hp Hempty Hrun.
  assert (Hknown : forall (zs : list string) u u',
    loads u [] -> add_all zs u = (Return tt, u') ->
    exists u'', known u' = (Return (list_to_set zs), u'')).
  { intros zs u u' (l & w & Hl & He) Hzs.
    destruct (add_all_then_load zs Hp u u' []) as (l' & w' & Hl' & Hids);
      [exists l, w; by rewrite He|done|].
    eexists. rewrite known_eq, Hl', Hids. reflexivity. }
  split; [by eapply Hknown|].
  intros ys t t' Ht Hys Hsame.
  destruct (Hknown xs s s' Hempty Hrun) as (s'' & ->).
  destruct (Hknown ys t t' Ht Hys) as (t'' & ->). cbn. f_equal.
  apply set_eq. intros x. by rewrite !elem_of_list_to_set.
Qed.

(** C6: [set_index_dir d] assigns [index_dir] and then calls
    [_initialize_index], once, with the new [index_dir] in force: its
    outcome is the outcome of the hook and the world it leaves is the
    world the hook left, so also when the registry is pointed somewhere
    else afterwards.  After [set_index_dir d], [get_index_dir ()] answers
    [d], the hook having left the attribute alone. *)
Theorem get_after_set_index_dir (d d' : option Loc) s :
  let w1 := with_index_dir d (world s) in
  let s1 := (set_index_dir d s).2 in
  let w2 := with_index_dir d' (world s1) in
  let s2 := (set_index_dir d' s1).2 in
  index_dir w1 = d /\ index_dir w2 = d' /\
  set_index_dir d s =
    ((_initialize_index w1).1,
     mk_State (_initialize_index w1).2 (trace s ++ [CallInit d])) /\
  set_index_dir d' s1 =
    ((_initialize_index w2).1,
     mk_State (_initialize_index w2).2
       (trace s ++ [CallInit d; CallInit d'])) /\
  trace s1 = trace s ++ [CallInit d] /\
  trace s2 = trace s ++ [CallInit d; CallInit d'] /\
  (keeps_index_dir (with_index_dir d (world s)) ->
   get_index_dir (Exn := Exn) s1 = (Return d, s1)) /\
  (keeps_index_dir (with_index_dir d' (world s1)) ->
   get_index_dir (Exn := Exn) s2 = (Return d', s2)).
Proof.
  intros w1 s1 w2 s2. subst s2 w2 s1 w1. rewrite !set_index_dir_eq. cbn.
  rewrite <- app_assoc. unfold get_index_dir, keeps_index_dir. cbn.
  do 6 (split; [done|]). split; intros ->; reflexivity.
Qed.

(** C7: an exception of [load], [save] or [_initialize_index] comes out of
    [has], [known], [add], [set_index_dir] and the constructor as it is;
    the state is the one the failing hook left, and the failing hook is
    the last call made (each hook was called at most once: nothing is
    tried again). *)
Theorem storage_errors_propagate x s (e : Exn) w :
  (load (world s) = (Raise e, w) ->
   let s' := mk_State w (trace s ++ [CallLoad]) in
   has x s = (Raise e, s') /\ known s = (Raise e, s') /\
   add x s = (Raise e, s')) /\
  (forall l w1,
     load (world s) = (Return l, w1) ->
     save l (staged x l w1) = (Raise e, w) ->
     add x s =
       (Raise e,
        mk_State w
          (trace s ++ [CallLoad; CallSave (deref l (staged x l w1))]))) /\
  (forall d : option Loc,
     _initialize_index (with_index_dir d (world s)) = (Raise e, w) ->
     set_index_dir d s = (Raise e, mk_State w (trace s ++ [CallInit d])) /\
     __init__ (Some d) s =
       (Raise e, mk_State w (trace s ++ [CallInit d]))).
Proof.
  split; [|split].
  - intros Hl. rewrite has_eq, known_eq, add_eq, Hl. done.
  - intros l w1 Hl Hs. rewrite add_eq, Hl, Hs. done.
  - intros d Hi. change (__init__ (Some d) s) with (set_index_dir d s).
    rewrite set_index_dir_eq, Hi. done.
Qed.

(** C8: [has] and [known] leave the world as their one call of [load]
    leaves it and call neither [save] nor [_initialize_index]; so whatever
    [load] does not touch ([index_dir], the backend's storage) is after
    the call what it was before. *)
Theorem has_known_read_only x s :
  world (has x s).2 = (load (world s)).2 /\
  world (known s).2 = (load (world s)).2 /\
  trace (has x s).2 = trace s ++ [CallLoad] /\
  trace (known s).2 = trace s ++ [CallLoad] /\
  forall (T : Type) (field : World Loc Store -> T),
    field (load (world s)).2 = field (world s) ->
    field (world (has x s).2) = field (world s) /\
    field (world (known s).2) = field (world s).
Proof.
  rewrite has_eq, known_eq.
  destruct (load (world s)) as [[l|e] w]; cbn; repeat split; congruence.
Qed.

(** C10: the constructor calls [set_index_dir] with its argument, [None]
    when there is none, and so calls [_initialize_index] once, with that
    [index_dir] in force; its outcome is the outcome of the hook.  Without
    an argument the hook runs with [index_dir] at [None], and a backend
    whose hook raises there cannot be constructed that way. *)
Theorem init_always_initializes (arg : option (option Loc)) s :
  let d := default None arg in
  let w := with_index_dir d (world s) in
  __init__ arg s = set_index_dir d s /\
  index_dir w = d /\
  __init__ arg s =
    ((_initialize_index w).1,
     mk_State (_initialize_index w).2 (trace s ++ [CallInit d])) /\
  (arg = None ->
   trace (__init__ arg s).2 = trace s ++ [CallInit None] /\
   ((forall w0, index_dir w0 = None ->
                exists e, (_initialize_index w0).1 = Raise e) ->
    exists e, (__init__ arg s).1 = Raise e)).
Proof.
  intros d w. subst d w.
  change (__init__ arg s) with (set_index_dir (default None arg) s).
  rewrite set_index_dir_eq. repeat split; try done.
  - by subst arg.
  - subst arg. cbn. intros Hstrict. by apply Hstrict.
Qed.

(** C9, as the code has it: the timestamp [add] stores is the reading of
    the clock as [current_time ()] returned it, microseconds and all; this
    layer does not format it.  Written under [TIME_FORMAT] a valid
    timestamp takes the nineteen characters [YYYY-MM-DD:HH:MM:SS], with
    no time zone and no fraction of a second: the text is that of the
    timestamp cut to the second, and two timestamps read alike exactly
    when they agree to the second. *)
Theorem add_timestamp_is_clock_reading x s l w :
  load (world s) = (Return l, w) ->
  let now := clock w (ticks w) in
  trace (add x s).2 =
    trace s ++ [CallLoad; CallSave (deref l w ++ [mk_CacheEntry x now])] /\
  (valid_datetime now ->
   String.length (strftime TIME_FORMAT now) = 19 /\
   strftime TIME_FORMAT now =
     (zfill 4 (str (year now)) ++ "-" ++ zfill 2 (str (month now)) ++ "-" ++
      zfill 2 (str (day now)) ++ ":" ++ zfill 2 (str (hour now)) ++ ":" ++
      zfill 2 (str (minute now)) ++ ":" ++ zfill 2 (str (second now)))%string /\
   strftime TIME_FORMAT (to_seconds now) = strftime TIME_FORMAT now /\
   forall t,
     valid_datetime t ->
     strftime TIME_FORMAT t = strftime TIME_FORMAT now <->
     to_seconds t = to_seconds now).
Proof.
  intros Hl now. split.
  - rewrite add_eq, Hl, (staged_deref _ _ _ _ Hl). reflexivity.
  - intros Hv. split; [by apply strftime_TIME_FORMAT_length|].
    split; [apply strftime_TIME_FORMAT|]. split.
    + by rewrite !strftime_TIME_FORMAT.
    + intros t Ht. by apply strftime_TIME_FORMAT_seconds.
Qed.

End Contract.

(** * The two backends keep the contract of [save] *)

Lemma FileIndex_persists : persists (backend := FileIndex.backend).
Proof.
  intros l w w' _. cbn. unfold FileIndex.save, FileIndex.load.
  destruct (index_dir w) as [d|] eqn:Hd; [|done].
  destruct (FileIndex.writable (store w)); [|done]. intros [= <-]. cbn.
  rewrite Hd.
  rewrite lookup_insert_eq. eexists _, _. split; [reflexivity|].
  unfold deref at 1. cbn. rewrite lookup_app_r by done.
  rewrite Nat.sub_diag. cbn. rewrite <- list_fmap_compose. reflexivity.
Qed.

Lemma MemIndex_persists : persists (backend := MemIndex.backend).
Proof.
  intros l w w' Hlive. cbn. unfold MemIndex.save, MemIndex.load.
  intros [= <-]. destruct (lookup_lt_is_Some_2 _ _ Hlive) as [entries He].
  exists l, (with_store (Some l) w). split; [|reflexivity].
  cbn [store heap with_store]. by rewrite He.
Qed.

(** * The contract at work *)

(** C9 as it was put: with a clock that reads a quarter of a second past
    the second, the entry [add] hands to [save] carries the microseconds. *)
Lemma add_keeps_microseconds : ~ saves_whole_seconds "a" FileIndex.fresh.
Proof.
  intros Hclaim.
  specialize (Hclaim [mk_CacheEntry "a" (FileIndex.tick_clock 0)]
                (mk_CacheEntry "a" (FileIndex.tick_clock 0))).
  discriminate Hclaim; [vm_compute | | reflexivity].
  - apply list_elem_of_In. right. right. left. reflexivity.
  - apply list_elem_of_here.
Qed.

Lemma add_appends_one_entry_and_saves_witness :
  let s := FileIndex.fresh in
  let w := with_heap [[]] (world s) in
  load (world s) = (Return 0, w) /\
  persists (backend := FileIndex.backend) /\
  deref 0 (staged "a" 0 w) = [mk_CacheEntry "a" (FileIndex.tick_clock 0)] /\
  (add "a" s).1 = Return tt /\
  exists l' w',
    load (world (add "a" (add "a" s).2).2) = (Return l', w') /\
    identifier <$> deref l' w' = ["a"; "a"].
Proof.
  intros s w.
  assert (Hl : load (world s) = (Return 0, w)) by (vm_compute; reflexivity).
  destruct (add_appends_one_entry_and_saves "a" s 0 w Hl)
    as (Happ & _ & Hadd & Htwice).
  split; [exact Hl|]. split; [exact FileIndex_persists|].
  split; [exact Happ|]. split; [rewrite Hadd; vm_compute; reflexivity|].
  destruct (Htwice FileIndex_persists (add "a" s).2
              (add "a" (add "a" s).2).2) as (l' & w' & Hl' & Hids & _);
    [vm_compute; reflexivity..|].
  exists l', w'. split; [exact Hl'|exact Hids].
Defined.

Lemma has_iff_some_entry_witness :
  let s := (add "a" FileIndex.fresh).2 in
  let w := (load (world s)).2 in
  load (world s) = (Return 1, w) /\
  (has "a" s).1 = Return true /\
  trace (has "a" s).2 = trace s ++ [CallLoad].
Proof.
  intros s w.
  assert (Hl : load (world s) = (Return 1, w)) by (vm_compute; reflexivity).
  destruct (has_iff_some_entry "a" s) as [Htrace Hhas].
  destruct (Hhas 1 w Hl) as (b & -> & Hb).
  split; [exact Hl|]. split; [|exact Htrace]. cbn. f_equal. apply Hb.
  eexists. split; [apply list_elem_of_here|reflexivity].
Defined.

Lemma known_is_set_of_identifiers_witness :
  let s := (add_all ["a"; "b"; "a"] FileIndex.fresh).2 in
  let w := (load (world s)).2 in
  exists ids : gset string,
    load (world s) = (Return 3, w) /\
    (known s).1 = Return ids /\
    "a" ∈ ids /\ "b" ∈ ids /\ size ids = 2.
Proof.
  intros s w.
  assert (Hl : load (world s) = (Return 3, w)) by (vm_compute; reflexivity).
  destruct (known_is_set_of_identifiers s) as [_ Hknown].
  destruct (Hknown 3 w Hl) as (ids & Hk & Hin & Hsize).
  exists ids. split; [exact Hl|]. split; [by rewrite Hk|].
  assert (Hids : identifier <$> deref 3 w = ["a"; "b"; "a"])
    by (vm_compute; reflexivity).
  assert (Hmem : forall x, x ∈ ["a"; "b"; "a"] -> x ∈ ids).
  { intros x Hx. apply Hin. rewrite <- Hids in Hx.
    apply list_elem_of_fmap in Hx as (entry & -> & Hentry). eauto. }
  split; [apply Hmem, list_elem_of_here|].
  split; [apply Hmem, list_elem_of_further, list_elem_of_here|].
  rewrite Hsize, Hids. vm_compute. reflexivity.
Defined.

Lemma has_false_before_add_true_after_witness :
  let s := FileIndex.fresh in
  let w := with_heap [[]] (world s) in
  persists (backend := FileIndex.backend) /\
  load (world s) = (Return 0, w) /\
  (forall entry, entry ∈ deref 0 w -> identifier entry <> "a") /\
  (has "a" s).1 = Return false /\
  (add "a" (has "a" s).2).1 = Return tt /\
  (has "a" (add "a" (has "a" s).2).2).1 = Return true.
Proof.
  intros s w.
  assert (Hl : load (world s) = (Return 0, w)) by (vm_compute; reflexivity).
  assert (Hnone : forall entry, entry ∈ deref 0 w -> identifier entry <> "a")
    by (intros entry Hin; inversion Hin).
  destruct (has_false_before_add_true_after "a" s 0 w FileIndex_persists
              Hl Hnone) as (s1 & Hbefore & Hafter).
  split; [exact FileIndex_persists|]. split; [exact Hl|].
  split; [exact Hnone|]. rewrite Hbefore. split; [reflexivity|].
  cbn [snd].
  assert (s1 = (has "a" s).2) as -> by (by rewrite Hbefore).
  split; [vm_compute; reflexivity|].
  destruct (Hafter (add "a" (has "a" s).2).2) as (s3 & ->);
    [vm_compute; reflexivity | reflexivity].
Defined.

Lemma known_after_adds_witness :
  let s := MemIndex.fresh in
  let xs := ["file1"; "file2"; "file1"] in
  let ys := ["file2"; "file1"] in
  persists (backend := MemIndex.backend) /\
  loads s [] /\
  (add_all xs s).1 = Return tt /\
  (add_all ys s).1 = Return tt /\
  (known (add_all xs s).2).1 = Return (list_to_set xs) /\
  (known (add_all ys s).2).1 = (known (add_all xs s).2).1.
Proof.
  intros s xs ys.
  assert (Hempty : loads s [])
    by (exists 0, (world s); split; vm_compute; reflexivity).
  assert (Hxs : add_all xs s = (Return tt, (add_all xs s).2))
    by (vm_compute; reflexivity).
  assert (Hys : add_all ys s = (Return tt, (add_all ys s).2))
    by (vm_compute; reflexivity).
  destruct (known_after_adds xs s _ MemIndex_persists Hempty Hxs)
    as [(s'' & Hknown) Horder].
  split; [exact MemIndex_persists|]. split; [exact Hempty|].
  split; [by rewrite Hxs|]. split; [by rewrite Hys|].
  split; [by rewrite Hknown|].
  apply (Horder ys s _ Hempty Hys). intros x. subst xs ys.
  rewrite !elem_of_cons, !elem_of_nil. tauto.
Defined.

Lemma get_after_set_index_dir_witness :
  let s := FileIndex.blank in
  let s1 := (set_index_dir (Some "cache") s).2 in
  let s2 := (set_index_dir (Some "other") s1).2 in
  keeps_index_dir (with_index_dir (Some "cache") (world s)) /\
  keeps_index_dir (with_index_dir (Some "other") (world s1)) /\
  (set_index_dir (Some "cache") s).1 = Return tt /\
  FileIndex.files (store (world s1)) !! "cache" = Some [] /\
  (set_index_dir (Some "cache") FileIndex.sealed).1 =
    Raise FileIndex.Unwritable /\
  (get_index_dir (Exn := FileIndex.CacheException) s1).1 =
    Return (Some "cache") /\
  (get_index_dir (Exn := FileIndex.CacheException) s2).1 =
    Return (Some "other") /\
  trace s2 = [CallInit (Some "cache"); CallInit (Some "other")].
Proof.
  intros s s1 s2.
  assert (H1 : keeps_index_dir (with_index_dir (Some "cache") (world s)))
    by (vm_compute; reflexivity).
  assert (H2 : keeps_index_dir (with_index_dir (Some "other") (world s1)))
    by (vm_compute; reflexivity).
  destruct (get_after_set_index_dir (Some "cache") (Some "other") s)
    as (_ & _ & Hset & _ & _ & Htrace & Hget1 & Hget2).
  destruct (get_after_set_index_dir (Some "cache") None FileIndex.sealed)
    as (_ & _ & Hsealed & _).
  split; [exact H1|]. split; [exact H2|].
  split; [rewrite Hset; vm_compute; reflexivity|].
  split; [subst s1; rewrite Hset; vm_compute; reflexivity|].
  split; [rewrite Hsealed; vm_compute; reflexivity|].
  split; [exact (f_equal fst (Hget1 H1))|].
  split; [exact (f_equal fst (Hget2 H2))|].
  exact Htrace.
Defined.

Lemma storage_errors_propagate_witness :
  let unset := FileIndex.blank in
  let locked := FileIndex.locked in
  let sealed := FileIndex.sealed in
  let w := (load (world locked)).2 in
  (load (world unset)).1 = Raise FileIndex.NotSet /\
  (has "a" unset).1 = Raise FileIndex.NotSet /\
  (known unset).1 = Raise FileIndex.NotSet /\
  (add "a" unset).1 = Raise FileIndex.NotSet /\
  load (world locked) = (Return 0, w) /\
  (save 0 (staged "a" 0 w)).1 = Raise FileIndex.Unwritable /\
  (add "a" locked).1 = Raise FileIndex.Unwritable /\
  (_initialize_index (with_index_dir (Some "cache") (world sealed))).1 =
    Raise FileIndex.Unwritable /\
  (set_index_dir (Some "cache") sealed).1 = Raise FileIndex.Unwritable /\
  (__init__ (Some (Some "cache")) sealed).1 = Raise FileIndex.Unwritable.
Proof.
  intros unset locked sealed w.
  assert (Hunset : load (world unset) = (Raise FileIndex.NotSet, world unset))
    by (vm_compute; reflexivity).
  assert (Hl : load (world locked) = (Return 0, w))
    by (vm_compute; reflexivity).
  assert (Hs : save 0 (staged "a" 0 w) =
               (Raise FileIndex.Unwritable, staged "a" 0 w))
    by (vm_compute; reflexivity).
  assert (Hi : _initialize_index (with_index_dir (Some "cache") (world sealed))
               = (Raise FileIndex.Unwritable,
                  with_index_dir (Some "cache") (world sealed)))
    by (vm_compute; reflexivity).
  destruct (storage_errors_propagate "a" unset FileIndex.NotSet (world unset))
    as (Hload & _ & _).
  destruct (Hload Hunset) as (Hhas & Hknown & Hadd).
  destruct (storage_errors_propagate "a" locked FileIndex.Unwritable
              (staged "a" 0 w)) as (_ & Hsave & _).
  specialize (Hsave 0 w Hl Hs).
  destruct (storage_errors_propagate "a" sealed FileIndex.Unwritable
              (with_index_dir (Some "cache") (world sealed)))
    as (_ & _ & Hinit).
  destruct (Hinit (Some "cache") Hi) as [Hset Hnew].
  rewrite Hunset, Hhas, Hknown, Hadd, Hs, Hsave, Hi, Hset, Hnew.
  repeat split; reflexivity.
Defined.

Lemma has_known_read_only_witness :
  let s := (add "a" FileIndex.fresh).2 in
  store (load (world s)).2 = store (world s) /\
  index_dir (load (world s)).2 = index_dir (world s) /\
  store (world (has "a" s).2) = store (world s) /\
  store (world (known s).2) = store (world s) /\
  index_dir (world (has "a" s).2) = index_dir (world s) /\
  index_dir (world (known s).2) = index_dir (world s) /\
  trace (has "a" s).2 = trace s ++ [CallLoad] /\
  trace (known s).2 = trace s ++ [CallLoad].
Proof.
  intros s.
  assert (Hstore : store (load (world s)).2 = store (world s))
    by (vm_compute; reflexivity).
  assert (Hdir : index_dir (load (world s)).2 = index_dir (world s))
    by (vm_compute; reflexivity).
  destruct (has_known_read_only "a" s) as (_ & _ & Hth & Htk & Hframe).
  destruct (Hframe _ store Hstore) as [Hhs Hks].
  destruct (Hframe _ index_dir Hdir) as [Hhd Hkd].
  repeat split; assumption.
Defined.

Lemma add_timestamp_is_clock_reading_witness :
  let s := FileIndex.fresh in
  let w := (load (world s)).2 in
  let now := FileIndex.tick_clock 0 in
  load (world s) = (Return 0, w) /\
  valid_datetime now /\
  trace (add "a" s).2 =
    [CallInit (Some "cache"); CallLoad; CallSave [mk_CacheEntry "a" now]] /\
  microsecond now = 250000%N /\
  strftime TIME_FORMAT now = "2024-03-09:12:00:00" /\
  strftime TIME_FORMAT (to_seconds now) = "2024-03-09:12:00:00".
Proof.
  intros s w now.
  assert (Hl : load (world s) = (Return 0, w)) by (vm_compute; reflexivity).
  assert (Hv : valid_datetime now) by (vm_compute; intuition discriminate).
  destruct (add_timestamp_is_clock_reading "a" s 0 w Hl) as [Htrace Htext].
  destruct (Htext Hv) as (_ & _ & Hcut & _).
  split; [exact Hl|]. split; [exact Hv|]. split; [exact Htrace|].
  split; [reflexivity|]. split; [reflexivity|].
  transitivity (strftime TIME_FORMAT now); [exact Hcut | reflexivity].
Defined.

Lemma init_always_initializes_witness :
  let s := MemIndex.blank in
  (forall w0 : MemIndex.W,
     index_dir w0 = None -> exists e, (_initialize_index w0).1 = Raise e) /\
  trace (__init__ None s).2 = [CallInit None] /\
  (exists e, (__init__ None s).1 = Raise e) /\
  (__init__ (Some (Some tt)) s).1 = Return tt.
Proof.
  intros s.
  assert (Hstrict : forall w0 : MemIndex.W,
            index_dir w0 = None ->
            exists e, (_initialize_index w0).1 = Raise e).
  { intros w0 Hnone. exists MemIndex.Unset. cbn.
    unfold MemIndex._initialize_index. by rewrite Hnone. }
  destruct (init_always_initializes None s) as (_ & _ & _ & Hdefault).
  destruct (Hdefault eq_refl) as [Htrace Hfails].
  destruct (init_always_initializes (Some (Some tt)) s) as (_ & _ & Hgiven & _).
  split; [exact Hstrict|]. split; [exact Htrace|].
  split; [exact (Hfails Hstrict)|]. rewrite Hgiven. reflexivity.
Defined.

Example strftime_sample :
  strftime TIME_FORMAT (mk_datetime 2024 3 9 7 5 0 123456%N) = "2024-03-09:07:05:00".
Proof. reflexivity. Qed.

(** With [MemIndex] the list [add] appends to is the backend's own: one
    list object, still the stored one, holds both entries after two calls,
    microseconds included. *)
Example mem_index_shares_list :
  let s := (add_all ["a"; "b"] MemIndex.fresh).2 in
  store (world s) = Some 0 /\
  heap (world s) =
    [[mk_CacheEntry "a" (FileIndex.tick_clock 0);
      mk_CacheEntry "b" (FileIndex.tick_clock 1)]].
Proof. split; reflexivity. Qed.

(** * How the methods compose *)

Section Composition.

Context {Loc Store Exn : Type} {backend : IndexBackend Loc Store Exn}.

Implicit Types (s : State Loc Store) (w : World Loc Store) (l : ref)
  (x y : string).

Lemma existsb_identifier_app y x (before after : list CacheEntry) :
  identifier <$> after = (identifier <$> before) ++ [x] ->
  existsb (fun entry => bool_decide (identifier entry = y)) after =
  existsb (fun entry => bool_decide (identifier entry = y)) before
  || bool_decide (y = x).
Proof.
  intros Hids. apply Bool.eq_iff_eq_true.
  rewrite Bool.orb_true_iff, !existsb_identifier, bool_decide_eq_true, Hids.
  rewrite elem_of_app, list_elem_of_singleton. done.
Qed.

Lemma add_ticks x s :
  leave_clock_alone ->
  ticks (world (add x s).2) =
  match (load (world s)).1 with
  | Return _ => S (ticks (world s))
  | Raise _ => ticks (world s)
  end.
Proof.
  intros [Hload Hsave]. rewrite add_eq. specialize (Hload (world s)).
  destruct (load (world s)) as [[l|e] w]; cbn in *; [|done].
  rewrite Hsave. cbn. by rewrite Hload.
Qed.

(** X1: on one and the same state [has x] answers what membership of [x]
    in the answer of [known ()] would, and fails as [known ()] fails,
    leaving the same state. *)
Theorem has_agrees_with_known x s :
  has x s =
  match known s with
  | (Return ids, s') => (Return (bool_decide (x ∈ ids)), s')
  | (Raise e, s') => (Raise e, s')
  end.
Proof.
  rewrite has_eq, known_eq.
  destruct (load (world s)) as [[l|e] w]; [|done]. do 2 f_equal.
  apply Bool.eq_iff_eq_true.
  rewrite existsb_identifier, bool_decide_eq_true, elem_of_list_to_set. done.
Qed.

(** X2: a run of [add] calls that all return only adds to what is known:
    [known ()] afterwards is what it was before together with the
    identifiers passed, whatever the index held at the start. *)
Theorem known_grows_with_adds (xs : list string) s s0 s' (ids : gset string) :
  persists ->
  known s = (Return ids, s0) ->
  add_all xs s = (Return tt, s') ->
  exists s'', known s' = (Return (ids ∪ list_to_set xs), s'').
Proof.
  intros Hp Hk Hrun. rewrite known_eq in Hk.
  destruct (load (world s)) as [[l|e] w] eqn:Hl; [|done].
  injection Hk as <- <-.
  destruct (add_all_then_load xs Hp s s' (identifier <$> deref l w))
    as (l' & w' & Hl' & Hids); [by exists l, w|done|].
  eexists. rewrite known_eq, Hl', Hids, list_to_set_app_L. reflexivity.
Qed.

(** X3: [add x] changes the answer of [has] for [x] alone: once it has
    returned, [has y] answers true for [y = x] and what it answered before
    for every other [y]. *)
Theorem has_after_add x y s s0 s' (b : bool) :
  persists ->
  has y s = (Return b, s0) ->
  add x s = (Return tt, s') ->
  exists s'', has y s' = (Return (b || bool_decide (y = x)), s'').
Proof.
  intros Hp Hh Ha. rewrite has_eq in Hh.
  destruct (load (world s)) as [[l|e] w] eqn:Hl; [|done].
  injection Hh as <- <-.
  destruct (add_then_load _ _ _ _ _ Hp Hl Ha) as (l' & w' & Hl' & Hids).
  eexists. rewrite has_eq, Hl'. by rewrite (existsb_identifier_app _ _ _ _ Hids).
Qed.

(** X4: after a run of [add] calls that all return, [load] answers with
    the identifiers that were there, in their order, followed by the
    identifiers passed, in the order of the calls and with their
    repetitions: the index is longer by the number of calls. *)
Theorem load_after_adds_in_order (xs : list string) s s' l w :
  persists ->
  load (world s) = (Return l, w) ->
  add_all xs s = (Return tt, s') ->
  exists l' w',
    load (world s') = (Return l', w') /\
    identifier <$> deref l' w' = (identifier <$> deref l w) ++ xs /\
    length (deref l' w') = length (deref l w) + length xs.
Proof.
  intros Hp Hl Hrun.
  destruct (add_all_then_load xs Hp s s' (identifier <$> deref l w))
    as (l' & w' & Hl' & Hids); [by exists l, w|done|].
  exists l', w'. split; [done|]. split; [done|].
  apply (f_equal length) in Hids.
  by rewrite length_app, !length_fmap in Hids.
Qed.

(** X5: [add] is not all or nothing.  The entry is appended to the loaded
    list object before [save] is called, so when [save] raises and the
    backend goes on handing out that list object, [add] has failed and
    [has x] nevertheless answers true. *)
Theorem add_failed_save_keeps_append x s l w (e : Exn) w' l2 w2 :
  load (world s) = (Return l, w) ->
  save l (staged x l w) = (Raise e, w') ->
  load w' = (Return l2, w2) ->
  deref l2 w2 = deref l (staged x l w) ->
  (add x s).1 = Raise e /\
  world (add x s).2 = w' /\
  deref l2 w2 = deref l w ++ [mk_CacheEntry x (clock w (ticks w))] /\
  (has x (add x s).2).1 = Return true.
Proof.
  intros Hl Hs Hl2 Hshared.
  assert (Ha : add x s =
    (Raise e, mk_State w' (trace s ++
       [CallLoad; CallSave (deref l (staged x l w))])))
    by (by rewrite add_eq, Hl, Hs).
  rewrite Ha. cbn. split; [done|]. split; [done|].
  rewrite Hshared, (staged_deref _ _ _ _ Hl). split; [done|].
  rewrite has_eq. cbn. rewrite Hl2. cbn. f_equal.
  rewrite existsb_identifier, Hshared, (staged_deref _ _ _ _ Hl), fmap_app.
  set_solver.
Qed.

(** X6: [set_index_dir] assigns before it initializes.  When
    [_initialize_index] raises (and has not itself reassigned the
    attribute), [set_index_dir d] fails and [get_index_dir ()] answers [d]
    all the same, not the location in force before the call. *)
Theorem failed_set_index_dir_moves (d : option Loc) s (e : Exn) w' :
  _initialize_index (with_index_dir d (world s)) = (Raise e, w') ->
  index_dir w' = d ->
  (set_index_dir d s).1 = Raise e /\
  (get_index_dir (Exn := Exn) (set_index_dir d s).2).1 = Return d.
Proof.
  intros Hi Hd. rewrite set_index_dir_eq, Hi. cbn. by rewrite Hd.
Qed.

(** X7: with hooks that leave the clock alone, [add] reads the clock once
    when [load] returned, whether [save] then returns or raises, and not at
    all when [load] raised; a run of [add] calls that all return reads it
    once per call. *)
Theorem adds_read_clock_once_each x (xs : list string) s :
  leave_clock_alone ->
  ticks (world (add x s).2) =
    match (load (world s)).1 with
    | Return _ => S (ticks (world s))
    | Raise _ => ticks (world s)
    end /\
  forall s',
    add_all xs s = (Return tt, s') ->
    ticks (world s') = ticks (world s) + length xs.
Proof.
  intros Hclock. split; [by apply add_ticks|].
  revert s. induction xs as [|x' xs IH]; intros s s'.
  - intros [= <-]. cbn. lia.
  - cbn. unfold bind at 1.
    destruct (add x' s) as [[[]|e] s1] eqn:Ha; [|done]. intros Hrest.
    rewrite (IH _ _ Hrest).
    pose proof (add_ticks x' s Hclock) as Ht. rewrite Ha in Ht. cbn in Ht.
    destruct (add_returns_load_returned _ _ _ Ha) as (l & w & Hl).
    rewrite Hl in Ht. cbn in Ht. lia.
Qed.

Lemma add_index_dir x s :
  load_keeps index_dir -> save_keeps index_dir ->
  index_dir (world (add x s).2) = index_dir (world s).
Proof.
  intros Hload Hsave. rewrite add_eq. specialize (Hload (world s)).
  destruct (load (world s)) as [[l|e] w]; cbn in *; [|done].
  by rewrite Hsave.
Qed.


(** X10: [add] never assigns [index_dir].  With hooks [load] and [save]
    that leave the attribute alone, [get_index_dir ()] answers after any
    run of [add] calls, whether they returned or one of them raised, what
    it answered before. *)
Theorem adds_keep_index_dir (xs : list string) s :
  load_keeps index_dir -> save_keeps index_dir ->
  (get_index_dir (Exn := Exn) (add_all xs s).2).1 =
  (get_index_dir (Exn := Exn) s).1.
Proof.
  intros Hload Hsave. unfold get_index_dir. cbn. f_equal.
  revert s. induction xs as [|x xs IH]; intros s; [done|].
  cbn. unfold bind at 1.
  pose proof (add_index_dir x s Hload Hsave) as Hx.
  destruct (add x s) as [[[]|e] s1]; cbn in *; [|done].
  by rewrite IH.
Qed.

End Composition.

Lemma FileIndex_leaves_clock : leave_clock_alone (backend := FileIndex.backend).
Proof.
  split.
  - intros w. cbn. unfold FileIndex.load.
    destruct (index_dir w) as [d|]; [|done].
    by destruct (FileIndex.files (store w) !! d).
  - intros l w. cbn. unfold FileIndex.save.
    destruct (index_dir w) as [d|]; [|done].
    by destruct (FileIndex.writable (store w)).
Qed.

Lemma known_grows_with_adds_witness :
  let s := (add "a" FileIndex.fresh).2 in
  let xs := ["b"; "a"] in
  persists (backend := FileIndex.backend) /\
  (known s).1 = Return (list_to_set ["a"]) /\
  (add_all xs s).1 = Return tt /\
  (known (add_all xs s).2).1 = Return (list_to_set ["a"] ∪ list_to_set xs).
Proof.
  intros s xs.
  assert (Hk : known s = (Return (list_to_set ["a"]), (known s).2))
    by (vm_compute; reflexivity).
  assert (Hrun : add_all xs s = (Return tt, (add_all xs s).2))
    by (vm_compute; reflexivity).
  destruct (known_grows_with_adds xs s _ _ _ FileIndex_persists Hk Hrun)
    as (s'' & Hafter).
  split; [exact FileIndex_persists|]. split; [by rewrite Hk|].
  split; [by rewrite Hrun|]. by rewrite Hafter.
Defined.

Lemma has_after_add_witness :
  let s := FileIndex.fresh in
  persists (backend := FileIndex.backend) /\
  (has "a" s).1 = Return false /\
  (has "b" s).1 = Return false /\
  (add "a" s).1 = Return tt /\
  (has "a" (add "a" s).2).1 = Return true /\
  (has "b" (add "a" s).2).1 = Return false.
Proof.
  intros s.
  assert (Ha : has "a" s = (Return false, (has "a" s).2))
    by (vm_compute; reflexivity).
  assert (Hb : has "b" s = (Return false, (has "b" s).2))
    by (vm_compute; reflexivity).
  assert (Hadd : add "a" s = (Return tt, (add "a" s).2))
    by (vm_compute; reflexivity).
  destruct (has_after_add "a" "a" s _ _ _ FileIndex_persists Ha Hadd)
    as (sa & Hsa).
  destruct (has_after_add "a" "b" s _ _ _ FileIndex_persists Hb Hadd)
    as (sb & Hsb).
  split; [exact FileIndex_persists|]. split; [by rewrite Ha|].
  split; [by rewrite Hb|]. split; [by rewrite Hadd|].
  split; [by rewrite Hsa | by rewrite Hsb].
Defined.

Lemma load_after_adds_in_order_witness :
  let s := (add "a" FileIndex.fresh).2 in
  let xs := ["b"; "a"] in
  let w := (load (world s)).2 in
  persists (backend := FileIndex.backend) /\
  load (world s) = (Return 1, w) /\
  identifier <$> deref 1 w = ["a"] /\
  (add_all xs s).1 = Return tt /\
  exists l' w',
    load (world (add_all xs s).2) = (Return l', w') /\
    identifier <$> deref l' w' = ["a"; "b"; "a"] /\
    length (deref l' w') = 3.
Proof.
  intros s xs w.
  assert (Hl : load (world s) = (Return 1, w)) by (vm_compute; reflexivity).
  assert (Hrun : add_all xs s = (Return tt, (add_all xs s).2))
    by (vm_compute; reflexivity).
  destruct (load_after_adds_in_order xs s _ 1 w FileIndex_persists Hl Hrun)
    as (l' & w' & Hl' & Hids & Hlen).
  split; [exact FileIndex_persists|]. split; [exact Hl|].
  split; [reflexivity|]. split; [by rewrite Hrun|].
  exists l', w'. split; [exact Hl'|]. split; [exact Hids | exact Hlen].
Defined.

Lemma add_failed_save_keeps_append_witness :
  let s := QuotaIndex.full in
  let w := world s in
  let w' := staged "b" 0 w in
  load (world s) = (Return 0, w) /\
  save 0 (staged "b" 0 w) = (Raise QuotaIndex.Full, w') /\
  load w' = (Return 0, w') /\
  (has "b" s).1 = Return false /\
  (add "b" s).1 = Raise QuotaIndex.Full /\
  (has "b" (add "b" s).2).1 = Return true.
Proof.
  intros s w w'.
  assert (Hl : load (world s) = (Return 0, w)) by (vm_compute; reflexivity).
  assert (Hs : save 0 (staged "b" 0 w) = (Raise QuotaIndex.Full, w'))
    by (vm_compute; reflexivity).
  assert (Hl2 : load w' = (Return 0, w')) by (vm_compute; reflexivity).
  destruct (add_failed_save_keeps_append "b" s 0 w QuotaIndex.Full w' 0 w'
              Hl Hs Hl2 eq_refl) as (Hfail & _ & _ & Hhas).
  split; [exact Hl|]. split; [exact Hs|]. split; [exact Hl2|].
  split; [vm_compute; reflexivity|]. split; [exact Hfail | exact Hhas].
Defined.

Lemma failed_set_index_dir_moves_witness :
  let s := FileIndex.sealed in
  let d := Some "cache" in
  let w' := with_index_dir d (world s) in
  _initialize_index (with_index_dir d (world s)) =
    (Raise FileIndex.Unwritable, w') /\
  index_dir w' = d /\
  (get_index_dir (Exn := FileIndex.CacheException) s).1 = Return None /\
  (set_index_dir d s).1 = Raise FileIndex.Unwritable /\
  (get_index_dir (Exn := FileIndex.CacheException) (set_index_dir d s).2).1 =
    Return d.
Proof.
  intros s d w'.
  assert (Hi : _initialize_index (with_index_dir d (world s)) =
               (Raise FileIndex.Unwritable, w')) by (vm_compute; reflexivity).
  destruct (failed_set_index_dir_moves d s FileIndex.Unwritable w' Hi eq_refl)
    as [Hfail Hget].
  split; [exact Hi|]. split; [reflexivity|]. split; [reflexivity|].
  split; [exact Hfail | exact Hget].
Defined.

Lemma adds_read_clock_once_each_witness :
  let s := FileIndex.fresh in
  leave_clock_alone (backend := FileIndex.backend) /\
  ticks (world s) = 0 /\
  ticks (world (add "a" s).2) = 1 /\
  ticks (world (add "a" FileIndex.blank).2) = 0 /\
  (add_all ["a"; "b"; "a"] s).1 = Return tt /\
  ticks (world (add_all ["a"; "b"; "a"] s).2) = 3.
Proof.
  intros s.
  assert (Hrun : add_all ["a"; "b"; "a"] s =
                 (Return tt, (add_all ["a"; "b"; "a"] s).2))
    by (vm_compute; reflexivity).
  destruct (adds_read_clock_once_each "a" ["a"; "b"; "a"] s
              FileIndex_leaves_clock) as [Hone Hall].
  destruct (adds_read_clock_once_each "a" [] FileIndex.blank
              FileIndex_leaves_clock) as [Hnone _].
  split; [exact FileIndex_leaves_clock|]. split; [reflexivity|].
  split; [exact Hone|]. split; [exact Hnone|]. split; [by rewrite Hrun|].
  exact (Hall _ Hrun).
Defined.

(** * Timestamps as text sort by time *)

Section Ordering.











End Ordering.




Lemma FileIndex_load_keeps_index_dir :
  load_keeps (backend := FileIndex.backend) index_dir.
Proof.
  intros w. cbn. unfold FileIndex.load.
  destruct (index_dir w) as [d|] eqn:Hd; [|exact Hd].
  destruct (FileIndex.files (store w) !! d); exact Hd.
Qed.

Lemma FileIndex_save_keeps_index_dir :
  save_keeps (backend := FileIndex.backend) index_dir.
Proof.
  intros l w. cbn. unfold FileIndex.save.
  destruct (index_dir w) as [d|] eqn:Hd; [|exact Hd].
  destruct (FileIndex.writable (store w)); exact Hd.
Qed.


Lemma adds_keep_index_dir_witness :
  load_keeps (backend := FileIndex.backend) index_dir /\
  save_keeps (backend := FileIndex.backend) index_dir /\
  (add_all ["a"; "b"] FileIndex.fresh).1 = Return tt /\
  (get_index_dir (Exn := FileIndex.CacheException)
     (add_all ["a"; "b"] FileIndex.fresh).2).1 = Return (Some "cache") /\
  (add_all ["a"; "b"] FileIndex.locked).1 = Raise FileIndex.Unwritable /\
  (get_index_dir (Exn := FileIndex.CacheException)
     (add_all ["a"; "b"] FileIndex.locked).2).1 = Return (Some "cache").
Proof.
  split; [exact FileIndex_load_keeps_index_dir|].
  split; [exact FileIndex_save_keeps_index_dir|].
  split; [vm_compute; reflexivity|].
  split; [|split; [vm_compute; reflexivity|]].
  - rewrite (adds_keep_index_dir ["a"; "b"] FileIndex.fresh
               FileIndex_load_keeps_index_dir FileIndex_save_keeps_index_dir).
    reflexivity.
  - rewrite (adds_keep_index_dir ["a"; "b"] FileIndex.locked
               FileIndex_load_keeps_index_dir FileIndex_save_keeps_index_dir).
    reflexivity.
Defined.
